(** * rclone [cmd/mountlib/fs.go]: the top level of the mounted filing system

    A shallow embedding of [fs.go] (package [mountlib]): the [Nodes] sort
    interface, the [FS] aggregate with [NewFS], [PollChanges], [Root],
    [Lookup] and [Statfs], and the inode allocator [NewInode].

    Conventions.
    - A Go [string] is a Rocq [string]: a sequence of bytes ([ascii]).
    - Go's [int] and [uint64] are [Z]; the 64-bit wrap-around of the inode
      counter is written out.  Slice indexes are [nat]: a negative index
      panics exactly like one past the end.
    - A value of interface type [Node] is an [option Node]: [None] is the
      nil interface, [Some (NDir d)] holds a [*Dir], [Some (NFile f)] a
      [*File].  A Go [error] is an [option error], [None] being nil.
    - The rest of the package ([dir.go], [file.go], the errors, the flags)
      and the backend package [fs] are not part of this file: they are the
      fields of the class [Package], and everything below is stated for an
      arbitrary instance of it.
    - Effects are explicit state passing.  A [State] holds the [World] the
      collaborators act on (directory caches, backend, clock) and a log of
      the calls made to them, in order. *)

From Stdlib Require Import ZArith String Ascii List Lia.
From stdpp Require Import base option list strings sorting.
From Equations Require Import Equations.

Local Open Scope Z_scope.

(** ** Go strings *)

(** [strings.IndexByte(s, c)]: the index of the first [c] in [s], or -1. *)
Fixpoint IndexByte (s : string) (c : ascii) : Z :=
  match s with
  | EmptyString => -1
  | String a s' =>
      if Ascii.eqb a c then 0
      else let i := IndexByte s' c in if i <? 0 then -1 else i + 1
  end.

(** [strings.IndexRune(s, r)] for a rune below [utf8.RuneSelf], the only use
    in this package (['/']): Go dispatches it to [IndexByte]. *)
Definition IndexRune (s : string) (r : ascii) : Z := IndexByte s r.

(** [s[:hi]] and [s[lo:]], for indexes within [0 .. len(s)]. *)
Fixpoint take_bytes (n : nat) (s : string) : string :=
  match n, s with
  | S n', String a s' => String a (take_bytes n' s')
  | _, _ => EmptyString
  end.

Fixpoint drop_bytes (n : nat) (s : string) : string :=
  match n, s with
  | S n', String _ s' => drop_bytes n' s'
  | _, _ => s
  end.

Definition slice_hi (s : string) (hi : Z) : string := take_bytes (Z.to_nat hi) s.
Definition slice_lo (s : string) (lo : Z) : string := drop_bytes (Z.to_nat lo) s.

(** Go's [<] on strings: byte-wise comparison, a proper prefix being
    smaller. *)
Fixpoint string_lt (s t : string) : bool :=
  match s, t with
  | _, EmptyString => false
  | EmptyString, String _ _ => true
  | String a s', String b t' =>
      if (N_of_ascii a <? N_of_ascii b)%N then true
      else if (N_of_ascii b <? N_of_ascii a)%N then false
      else string_lt s' t'
  end.

(** ** The inode allocator *)

Definition uint64_modulus : Z := 2 ^ 64.

(** [atomic.AddUint64(addr, delta)]: adds [delta] to [*addr] modulo 2^64 and
    returns the new value.  The pair is (returned value, new [*addr]). *)
Definition atomic_AddUint64 (addr : Z) (delta : Z) : Z * Z :=
  let new := (addr + delta) mod uint64_modulus in (new, new).

(** [var inodeCount uint64]: zero when the process starts. *)
Definition inodeCount_init : Z := 0.

(** [NewInode] in state-passing form: (returned inode, new [inodeCount]). *)
Definition NewInode (inodeCount : Z) : Z * Z := atomic_AddUint64 inodeCount 1.

(** [n] successive calls of [NewInode]: the values returned, in call order,
    and the counter left behind.  Calls from several goroutines are
    serialised by the atomic add, so every execution is such a sequence. *)
Fixpoint NewInode_calls (n : nat) (inodeCount : Z) : list Z * Z :=
  match n with
  | O => ([], inodeCount)
  | S n' =>
      let '(inode, inodeCount1) := NewInode inodeCount in
      let '(inodes, inodeCount2) := NewInode_calls n' inodeCount1 in
      (inode :: inodes, inodeCount2)
  end.

(** The values returned by the first [n] calls of the process. *)
Definition NewInode_run (n : nat) : list Z := fst (NewInode_calls n inodeCount_init).

(** What the allocator is said to guarantee about the first [n] calls:
    exactly the run 1..n, strictly increasing, pairwise distinct, never 0,
    starting at 1. *)
Definition inode_contract (n : nat) : Prop :=
  NewInode_run n = Z.of_nat <$> seq 1 n
  ∧ StronglySorted Z.lt (NewInode_run n)
  ∧ NoDup (NewInode_run n)
  ∧ (0 ∉ NewInode_run n)
  ∧ (∀ i, NewInode_run n !! 0%nat = Some i → i = 1).

(** ** What [fs.go] takes from elsewhere *)

(** The types [fs.go] uses from the rest of the package and from the
    backend package [fs]. *)
Class PackageTypes := {
  Dir : Type;                    (* *Dir, not nil *)
  File : Type;                   (* *File, not nil *)
  error : Type;                  (* an error value, not nil *)
  Fs : Type;                     (* fs.Fs, the backend handle *)
  fs_DirEntry : Type;            (* fs.DirEntry *)
  fs_Dir : Type;                 (* *fs.Dir *)
  Time : Type;                   (* time.Time *)
  World : Type                   (* directory caches, backend, clock *)
}.

(** The dynamic type of a non-nil [Node]: a [*Dir] or a [*File], the two
    types the package declares as implementing the interface. *)
Inductive Node `{PackageTypes} : Type :=
| NDir (d : Dir)
| NFile (f : File).

(** The functions, methods and variables [fs.go] uses. *)
Class Package `{PackageTypes} := {
  ENOENT : error;
  (* func (d *Dir) Lookup(name string) (node Node, err error) *)
  Dir_Lookup : Dir → string → World → (option Node * option error) * World;
  (* the DirEntry() methods of *Dir and *File *)
  Dir_DirEntry : Dir → fs_DirEntry;
  File_DirEntry : File → fs_DirEntry;
  (* fs.DirEntry.Remote() *)
  Remote : fs_DirEntry → string;
  (* f.Features().DirChangeNotify: nil when the backend cannot notify;
     called with the method value root.ForgetPath and the poll interval *)
  DirChangeNotify : Fs → option (Dir → Z → World → World);
  time_Now : World → Time * World;
  fs_NewDir : string → Time → fs_Dir;
  (* newDir(fsys, f, parent, fsDir); the back pointer to the FS under
     construction is not represented: nothing in this file reads it *)
  newDir : Fs → option Dir → fs_Dir → World → Dir * World;
  (* the flags of the mount command *)
  NoSeek : bool;
  NoChecksum : bool;
  ReadOnly : bool;
  NoModTime : bool;
  DirCacheTime : Z;
  PollInterval : Z
}.

(** A call made to a collaborator, as the log records it: the arguments
    and, for [Dir.Lookup], what it returned. *)
Inductive Call `{PackageTypes} : Type :=
| CallDirLookup (d : Dir) (name : string) (node : option Node) (err : option error)
| CallDirChangeNotify (b : Fs) (forget : Dir) (pollInterval : Z).

Record State `{PackageTypes} : Type := mkState {
  world : World;
  calls : list Call
}.

(** [type Nodes []Node]. *)
Abbreviation Nodes := (list Node).

(** The result pair [(node Node, err error)]. *)
Abbreviation Result := (option Node * option error)%type.

(** ** sort.Interface *)

(** Go's [sort.Interface].  [None] is the run-time panic of an index out of
    range. *)
Class sort_Interface (T : Type) := {
  Len : T → nat;
  Less : T → nat → nat → option bool;
  Swap : T → nat → nat → option T
}.

(** [sort.insertionSort(data, a, b)], the routine [sort.Sort] and
    [sort.Stable] both run on a short slice:
<<
    for i := a + 1; i < b; i++ {
        for j := i; j > a && data.Less(j, j-1); j-- {
            data.Swap(j, j-1)
        }
    }
>> *)
Fixpoint insertionSort_inner {T} `{sort_Interface T} (data : T) (a j : nat) : option T :=
  match j with
  | O => Some data
  | S j' =>
      if decide (a < j)%nat then
        lt ← Less data j j';
        if lt : bool then data' ← Swap data j j'; insertionSort_inner data' a j'
        else Some data
      else Some data
  end.

(** The outer loop from [i], with [todo] iterations left. *)
Fixpoint insertionSort_outer {T} `{sort_Interface T} (data : T) (a i todo : nat) : option T :=
  match todo with
  | O => Some data
  | S todo' =>
      data' ← insertionSort_inner data a i;
      insertionSort_outer data' a (S i) todo'
  end.

Definition insertionSort {T} `{sort_Interface T} (data : T) (a b : nat) : option T :=
  insertionSort_outer data a (a + 1) (b - (a + 1)).

Section Mountlib.
Context `{Package}.

(** ** Nodes *)

Definition Node_DirEntry (n : Node) : fs_DirEntry :=
  match n with
  | NDir d => Dir_DirEntry d
  | NFile f => File_DirEntry f
  end.

(** [ns[i].DirEntry().Remote()], the key [Less] compares. *)
Definition Node_Remote (n : Node) : string := Remote (Node_DirEntry n).

(** The three sort methods of [Nodes]. *)
Definition Nodes_Len (ns : Nodes) : nat := length ns.

Definition Nodes_Swap (ns : Nodes) (i j : nat) : option Nodes :=
  x ← ns !! i;
  y ← ns !! j;
  Some (<[j := x]> (<[i := y]> ns)).

Definition Nodes_Less (ns : Nodes) (i j : nat) : option bool :=
  x ← ns !! i;
  y ← ns !! j;
  Some (string_lt (Remote (Node_DirEntry x)) (Remote (Node_DirEntry y))).

#[export] Instance Nodes_sort_Interface : sort_Interface Nodes :=
  {| Len := Nodes_Len; Less := Nodes_Less; Swap := Nodes_Swap |}.

(** Sorting a [Nodes] through its interface. *)
Definition sort_Nodes (ns : Nodes) : option Nodes := insertionSort ns 0 (Len ns).

(** ** FS *)

Record FS : Type := mkFS {
  f : Fs;
  root : Dir;
  noSeek : bool;
  noChecksum : bool;
  readOnly : bool;
  noModTime : bool;
  dirCacheTime : Z
}.

(** [PollChanges]: registers [root.ForgetPath] with the backend when the
    backend can notify. *)
Definition PollChanges (fsys : FS) (pollInterval : Z) (s : State) : FS * State :=
  match DirChangeNotify (f fsys) with
  | Some doDirChangeNotify =>
      (fsys,
       {| world := doDirChangeNotify (root fsys) pollInterval (world s);
          calls := calls s ++ [CallDirChangeNotify (f fsys) (root fsys) pollInterval] |})
  | None => (fsys, s)
  end.

Definition NewFS (f0 : Fs) (s : State) : FS * State :=
  let '(now, w1) := time_Now (world s) in
  let fsDir := fs_NewDir "" now in
  let '(rootDir, w2) := newDir f0 None fsDir w1 in
  let fsys :=
    {| f := f0;
       root := rootDir;
       noSeek := if NoSeek then true else false;
       noChecksum := if NoChecksum then true else false;
       readOnly := if ReadOnly then true else false;
       noModTime := if NoModTime then true else false;
       dirCacheTime := DirCacheTime |} in
  let s2 := {| world := w2; calls := calls s |} in
  if 0 <? PollInterval then
    let '(_, s3) := PollChanges fsys PollInterval s2 in (fsys, s3)
  else (fsys, s2).

Definition Root (fsys : FS) : Dir * option error := (root fsys, None).

(** [Statfs]: the body is a comment and [return nil]. *)
Definition Statfs (fsys : FS) : option error := None.

(** [dir.Lookup(name)], logged. *)
Definition call_Dir_Lookup (dir : Dir) (name : string) (s : State) : Result * State :=
  let '((node, err), w) := Dir_Lookup dir name (world s) in
  ((node, err), {| world := w; calls := calls s ++ [CallDirLookup dir name node err] |}).

(** The loop of [Lookup], from the current [node] and the rest of the
    [path]. *)
Equations? Lookup_loop (node : option Node) (path : string) (s : State) : Result * State
  by wf (String.length path) lt :=
  Lookup_loop node EmptyString s := ((node, None), s);
  Lookup_loop node (String c p) s :=
    let path := String c p in
    let i := IndexRune path "/" in
    let name := if i <? 0 then path else slice_hi path i in
    let path := if i <? 0 then "" else slice_lo path (i + 1) in
    if decide (name = "") then Lookup_loop node path s
    else
      match node with
      | Some (NDir dir) =>
          let '((node, err), s) := call_Dir_Lookup dir name s in
          match err with
          | Some e => ((None, Some e), s)
          | None => Lookup_loop node path s
          end
      | _ => ((None, Some ENOENT), s)
      end.
Proof.
  all: assert (Hdrop : ∀ k q, (String.length (drop_bytes k q) ≤ String.length q)%nat)
    by (induction k as [|k IH]; intros [|b q]; simpl; try lia;
        specialize (IH q); lia).
  all: repeat match goal with x := _ : string |- _ => subst x end.
  all: destruct (i <? 0) eqn:Hi; [simpl; lia|].
  all: unfold slice_lo; replace (Z.to_nat (i + 1)) with (S (Z.to_nat i)) by lia.
  all: simpl; specialize (Hdrop (Z.to_nat i) p); lia.
Qed.

Definition FS_Lookup (fsys : FS) (path : string) (s : State) : Result * State :=
  Lookup_loop (Some (NDir (root fsys))) path s.

End Mountlib.

(** ** Specification-side notions *)

(** Lexicographic order on byte strings, as a relation: a proper prefix
    comes first, otherwise the first differing byte decides. *)
Inductive lex_lt : string → string → Prop :=
| lex_lt_prefix c t : lex_lt EmptyString (String c t)
| lex_lt_byte a b s t : (N_of_ascii a < N_of_ascii b)%N → lex_lt (String a s) (String b t)
| lex_lt_tail a s t : lex_lt s t → lex_lt (String a s) (String a t).

Definition lex_le (s t : string) : Prop := s = t ∨ lex_lt s t.

(** Splitting on ['/'], as [strings.Split(path, "/")] does, and the
    segments of a path: the pieces that are not empty. *)
Fixpoint split_slash (path : string) : list string :=
  match path with
  | EmptyString => [EmptyString]
  | String c rest =>
      if Ascii.eqb c "/" then EmptyString :: split_slash rest
      else
        match split_slash rest with
        | seg :: segs => String c seg :: segs
        | [] => [String c EmptyString]
        end
  end.

Definition segments (path : string) : list string :=
  filter (λ seg, seg ≠ EmptyString) (split_slash path).

(** A non-empty path segment: at least one byte, none of them ['/']. *)
Definition is_segment (seg : string) : Prop :=
  seg ≠ EmptyString ∧ "/"%char ∉ list_ascii_of_string seg.

(** The segments joined by single slashes: ["a/b/c"] for [a], [b], [c]. *)
Definition join_slash (segs : list string) : string := String.concat "/" segs.

Section Specification.
Context `{Package}.

(** The resolution algorithm in the words of the specification: for each
    segment the current node must be a directory, else the lookup fails
    with [ENOENT]; the directory's [Lookup] is called, its error stops the
    walk and is returned with no node. *)
Fixpoint resolve_segments (node : option Node) (segs : list string) (s : State)
  : Result * State :=
  match segs with
  | [] => ((node, None), s)
  | name :: rest =>
      match node with
      | Some (NDir dir) =>
          let '((node', err), s') := call_Dir_Lookup dir name s in
          match err with
          | Some e => ((None, Some e), s')
          | None => resolve_segments node' rest s'
          end
      | _ => ((None, Some ENOENT), s)
      end
  end.

(** Calling [Dir.Lookup] on each segment in turn by hand, starting from the
    directory [dir]: what the last call made returned is the result.  A
    next segment cannot be looked up in something that is not a directory:
    that is [ENOENT]. *)
Fixpoint sequential_Dir_Lookup (dir : Dir) (segs : list string) (s : State)
  : Result * State :=
  match segs with
  | [] => ((Some (NDir dir), None), s)
  | name :: rest =>
      let '((node, err), s') := call_Dir_Lookup dir name s in
      match err, rest, node with
      | Some _, _, _ => ((node, err), s')
      | None, [], _ => ((node, None), s')
      | None, _ :: _, Some (NDir dir') => sequential_Dir_Lookup dir' rest s'
      | None, _ :: _, _ => ((None, Some ENOENT), s')
      end
  end.

(** The two halves of the contract of [Dir.Lookup]: a failed lookup returns
    no node, a successful one returns a node. *)
Definition Dir_Lookup_fails_without_node : Prop :=
  ∀ d name w node e w', Dir_Lookup d name w = ((node, Some e), w') → node = None.

Definition Dir_Lookup_finds_node : Prop :=
  ∀ d name w node w', Dir_Lookup d name w = ((node, None), w') → node ≠ None.

(** [PollChanges] called once for each of the given intervals, in order. *)
Fixpoint PollChanges_repeatedly (fsys : FS) (pollIntervals : list Z) (s : State)
  : FS * State :=
  match pollIntervals with
  | [] => (fsys, s)
  | pollInterval :: rest =>
      let '(fsys', s') := PollChanges fsys pollInterval s in
      PollChanges_repeatedly fsys' rest s'
  end.

(** A slice is sorted for the interface when no later element is [Less]
    than an earlier one: what [sort.Sort] leaves behind. *)
Definition Nodes_sorted (ns : Nodes) : Prop :=
  ∀ i j, (i < j < length ns)%nat → Less ns j i = Some false.

(** The model of [insertionSort] on lists: each element is inserted into
    the part already sorted, held in descending order, moving past the
    elements it is [<] than. *)
Fixpoint insert_desc (acc : list Node) (x : Node) : list Node :=
  match acc with
  | [] => [x]
  | y :: acc' =>
      if string_lt (Node_Remote x) (Node_Remote y) then y :: insert_desc acc' x
      else x :: acc
  end.

Definition insertion_model (sorted rest : list Node) : list Node :=
  reverse (foldl insert_desc (reverse sorted) rest).

(** The order on nodes the specification names: by backend path. *)
Definition Remote_le (x y : Node) : Prop := lex_le (Node_Remote x) (Node_Remote y).

(** ** Reading the log *)

(** The calls logged between the state [s] and a later state [s']. *)
Definition new_calls (s s' : State) : list Call := drop (length (calls s)) (calls s').

Definition is_Dir_Lookup_call (c : Call) : Prop :=
  match c with
  | CallDirLookup _ _ _ _ => True
  | CallDirChangeNotify _ _ _ => False
  end.

(** The names the logged [Dir.Lookup] calls were given, in call order. *)
Definition call_names (tr : list Call) : list string :=
  omap (λ c, match c with
             | CallDirLookup _ name _ _ => Some name
             | CallDirChangeNotify _ _ _ => None
             end) tr.

(** A log that is a chain of lookups from [node] in the world [w], ending
    in the world [w']: each call is made on the directory the one before
    returned, the first on [node]; it returned what [Dir.Lookup] returns in
    the world the one before left; only the last may have failed. *)
Fixpoint chained (node : option Node) (w : World) (tr : list Call) (w' : World) : Prop :=
  match tr with
  | [] => w' = w
  | CallDirLookup d name node' err :: tr' =>
      node = Some (NDir d)
      ∧ ∃ w1, Dir_Lookup d name w = ((node', err), w1)
              ∧ (tr' ≠ [] → err = None)
              ∧ chained node' w1 tr' w'
  | CallDirChangeNotify _ _ _ :: _ => False
  end.

(** The node the last logged lookup returned, [node] when there is none. *)
Fixpoint last_node (node : option Node) (tr : list Call) : option Node :=
  match tr with
  | [] => node
  | CallDirLookup _ _ node' _ :: tr' => last_node node' tr'
  | CallDirChangeNotify _ _ _ :: tr' => last_node node tr'
  end.

(** The index map of an exchange of [i] and [j]. *)
Definition swap_index (i j k : nat) : nat :=
  if decide (k = i) then j else if decide (k = j) then i else k.

End Specification.

(** ** A small tree to run the definitions on *)

Module TestTree.

Inductive test_error : Type := EIO | NotFound.

(** Directories and files are named by their backend path; the world counts
    the lookups made. *)
#[export] Instance test_types : PackageTypes :=
  {| Dir := string; File := string; error := test_error; Fs := bool;
     fs_DirEntry := string; fs_Dir := string; Time := nat; World := nat |}.

(** The tree: directories [a] and [a/d], files [a/b], [a/d/e], [b], [c]. *)
Definition entries : list (string * bool) :=
  [("a", true); ("a/b", false); ("a/d", true); ("a/d/e", false);
   ("b", false); ("c", false)]%string.

Definition test_Lookup (d : string) (name : string) (w : nat)
  : (option Node * option test_error) * nat :=
  let p := if decide (d = "") then name else (d ++ "/" ++ name)%string in
  if decide (name = "broken") then ((None, Some EIO), S w)
  else
    match list_find (λ e, e.1 = p) entries with
    | Some (_, (_, true)) => ((Some (NDir p), None), S w)
    | Some (_, (_, false)) => ((Some (NFile p), None), S w)
    | None => ((None, Some NotFound), S w)
    end.

#[export] Instance test_package : Package :=
  {| ENOENT := NotFound;
     Dir_Lookup := test_Lookup;
     Dir_DirEntry := λ d, d;
     File_DirEntry := λ f, f;
     Remote := λ e, e;
     DirChangeNotify := λ b : bool, if b then Some (λ _ _ w, S w) else None;
     time_Now := λ w, (w, w);
     fs_NewDir := λ name _, name;
     newDir := λ _ _ fsDir w, (fsDir, w);
     NoSeek := false; NoChecksum := false; ReadOnly := false; NoModTime := false;
     DirCacheTime := 300; PollInterval := 0 |}.

Definition test_state : State := {| world := 0%nat; calls := [] |}.
Definition test_fs : FS := (NewFS false test_state).1.

(** The same tree on a backend that can notify. *)
Definition test_fs_notify : FS := (NewFS true test_state).1.

End TestTree.

(** * Properties *)

(** ** Strings *)

Lemma IndexByte_range s c : IndexByte s c = -1 ∨ 0 ≤ IndexByte s c < Z.of_nat (String.length s).
Proof.
  induction s as [|a s IH]; simpl; [by left|].
  destruct (Ascii.eqb a c); [right; lia|].
  destruct (Z.ltb_spec (IndexByte s c) 0); [by left|right; lia].
Qed.

(** The two slices the loop of [Lookup] takes are within the string: the
    slice expressions cannot panic. *)
Lemma IndexRune_slices_in_range path :
  let i := IndexRune path "/" in
  0 ≤ i →
  0 ≤ i ≤ Z.of_nat (String.length path) ∧ 0 ≤ i + 1 ≤ Z.of_nat (String.length path).
Proof. intros i Hi. destruct (IndexByte_range path "/"); subst i; unfold IndexRune in *; lia. Qed.

(** One step of the loop is one step of [split_slash]. *)
Lemma split_slash_IndexRune path :
  let i := IndexRune path "/" in
  split_slash path =
    if i <? 0 then [path] else slice_hi path i :: split_slash (slice_lo path (i + 1)).
Proof.
  unfold IndexRune, slice_hi, slice_lo.
  induction path as [|c p IH]; [done|]. cbn [IndexByte split_slash].
  destruct (Ascii.eqb c "/"); [done|].
  destruct (IndexByte_range p "/") as [Hi|Hi].
  - rewrite Hi in *. simpl in *. by rewrite IH.
  - rewrite IH. destruct (Z.ltb_spec (IndexByte p "/") 0); [lia|].
    destruct (Z.ltb_spec (IndexByte p "/" + 1) 0); [lia|].
    replace (Z.to_nat (IndexByte p "/" + 1 + 1)) with (S (Z.to_nat (IndexByte p "/" + 1))) by lia.
    replace (Z.to_nat (IndexByte p "/" + 1)) with (S (Z.to_nat (IndexByte p "/"))) by lia.
    done.
Qed.

Lemma split_slash_not_nil path : split_slash path ≠ [].
Proof.
  induction path as [|c p IH]; simpl; [done|].
  destruct (Ascii.eqb c "/"); [done|]. by destruct (split_slash p).
Qed.

Lemma split_slash_app_slash p q :
  split_slash (p +:+ String "/" q) = split_slash p ++ split_slash q.
Proof.
  induction p as [|c p IH]; [done|]. simpl.
  destruct (Ascii.eqb c "/"); [by rewrite IH|].
  rewrite IH. by destruct (split_slash p) eqn:Hp; [apply split_slash_not_nil in Hp|].
Qed.

Lemma split_slash_segment seg : "/"%char ∉ list_ascii_of_string seg → split_slash seg = [seg].
Proof.
  induction seg as [|c p IH]; [done|]. cbn [list_ascii_of_string split_slash].
  intros [Hc Hp]%not_elem_of_cons. destruct (Ascii.eqb_spec c "/") as [->|_]; [done|].
  by rewrite IH.
Qed.

Lemma segments_app_slash p q : segments (p +:+ String "/" q) = segments p ++ segments q.
Proof. unfold segments. by rewrite split_slash_app_slash, filter_app. Qed.

Lemma segments_empty : segments "" = [].
Proof. done. Qed.

(** A leading slash, a trailing slash and a doubled slash add no segment. *)
Lemma segments_leading_slash p : segments ("/" +:+ p) = segments p.
Proof. done. Qed.

Lemma segments_trailing_slash p : segments (p +:+ "/") = segments p.
Proof. by rewrite segments_app_slash, segments_empty, app_nil_r. Qed.

Lemma segments_double_slash p q : segments (p +:+ "//" +:+ q) = segments (p +:+ "/" +:+ q).
Proof.
  change (p +:+ "//" +:+ q) with (p +:+ String "/" (String "/" q)).
  change (p +:+ "/" +:+ q) with (p +:+ String "/" q).
  by rewrite !segments_app_slash.
Qed.

Lemma segments_join_slash segs : Forall is_segment segs → segments (join_slash segs) = segs.
Proof.
  unfold join_slash. induction 1 as [|seg segs [Hne Hslash] Hsegs IH]; [done|].
  cbn [String.concat]. destruct segs as [|seg' segs].
  - unfold segments. rewrite split_slash_segment by done. by rewrite filter_cons_True.
  - change (seg +:+ "/" +:+ String.concat "/" (seg' :: segs))
      with (seg +:+ String "/" (String.concat "/" (seg' :: segs))).
    rewrite segments_app_slash, IH. unfold segments.
    rewrite split_slash_segment by done. by rewrite filter_cons_True.
Qed.

(** ** The loop of [Lookup] walks the segments of the path *)

Section Lookup.
Context `{Package}.

Lemma Lookup_loop_segments node path s :
  Lookup_loop node path s = resolve_segments node (segments path) s.
Proof.
  funelim (Lookup_loop node path s); [done|]. clear Heqcall.
  change (segments (String c p))
    with (filter (λ seg, seg ≠ "") (split_slash (String c p))).
  rewrite (split_slash_IndexRune (String c p)).
  set (i := IndexRune (String c p) "/") in *.
  destruct (i <? 0).
  - rewrite filter_cons_True, decide_False by done. cbn [filter list_filter resolve_segments].
    destruct node as [[dir|file]|]; [|done..].
    destruct (call_Dir_Lookup dir (String c p) s) as [[node' [e|]] s']; [done|].
    by rewrite Lookup_loop_equation_1.
  - destruct (decide (slice_hi (String c p) i = "")) as [Hname|Hname].
    + rewrite filter_cons_False by naive_solver. by apply H1.
    + rewrite filter_cons_True by done. cbn [resolve_segments].
      destruct node as [[dir|file]|]; [|done..].
      destruct (call_Dir_Lookup dir _ s) as [[node' [e|]] s'] eqn:Hcall; [done|].
      exact (H2 Hname (NDir dir) dir (None, None) s' node' None).
Qed.

Lemma FS_Lookup_segments fsys path s :
  FS_Lookup fsys path s = resolve_segments (Some (NDir (root fsys))) (segments path) s.
Proof. apply Lookup_loop_segments. Qed.

End Lookup.

Section Resolution.
Context `{Package}.

Lemma call_Dir_Lookup_inv dir name s node err s' :
  call_Dir_Lookup dir name s = ((node, err), s') →
  Dir_Lookup dir name (world s) = ((node, err), world s')
  ∧ calls s' = calls s ++ [CallDirLookup dir name node err].
Proof.
  unfold call_Dir_Lookup. destruct (Dir_Lookup dir name (world s)) as [[n e] w].
  by intros [= -> -> <-].
Qed.

Lemma resolve_segments_app node segs1 segs2 s :
  resolve_segments node (segs1 ++ segs2) s =
    match resolve_segments node segs1 s with
    | ((node', None), s') => resolve_segments node' segs2 s'
    | failed => failed
    end.
Proof.
  revert node s. induction segs1 as [|name segs1 IH]; intros node s; [done|].
  cbn [app resolve_segments]. destruct node as [[dir|file]|]; [|done..].
  destruct (call_Dir_Lookup dir name s) as [[node' [e|]] s']; [done|]. apply IH.
Qed.

(** Nothing is resolved below something that is not a directory. *)
Lemma resolve_segments_not_Dir node segs s :
  (∀ dir, node ≠ Some (NDir dir)) → segs ≠ [] →
  resolve_segments node segs s = ((None, Some ENOENT), s).
Proof.
  intros Hnode Hsegs. destruct segs as [|name segs]; [done|].
  cbn [resolve_segments]. destruct node as [[dir|file]|]; [|done..]. by destruct (Hnode dir).
Qed.

(** The calls a resolution logs: a failed [Dir.Lookup] is the last of them,
    and its error is the result. *)
Lemma resolve_segments_calls node segs s r s' :
  resolve_segments node segs s = (r, s') →
  ∃ tr, calls s' = calls s ++ tr
    ∧ ∀ pre d name n e post,
        tr = pre ++ CallDirLookup d name n (Some e) :: post →
        r = (None, Some e) ∧ post = [].
Proof.
  revert node s. induction segs as [|seg segs IH]; intros node s; cbn [resolve_segments].
  { intros [= <- <-]. exists []. split; [by rewrite app_nil_r|]. by intros [|??] ??????. }
  destruct node as [[dir|file]|];
    [|intros [= <- <-]; exists []; (split; [by rewrite app_nil_r|]); by intros [|??] ??????..].
  destruct (call_Dir_Lookup dir seg s) as [[node' err] s1] eqn:Hcall.
  apply call_Dir_Lookup_inv in Hcall as [_ Hlog]. destruct err as [e0|].
  - intros [= <- <-]. eexists; split; [done|].
    intros [|? [|??]] d name n e post Heq; by simplify_eq/=.
  - intros (tr & Htr & Hlast)%IH. exists (CallDirLookup dir seg node' None :: tr). split.
    + by rewrite Htr, Hlog, <-app_assoc.
    + intros [|c pre] d name n e post Heq; simplify_eq/=. by eapply Hlast.
Qed.

Lemma resolve_segments_sequential dir segs s :
  Dir_Lookup_fails_without_node →
  resolve_segments (Some (NDir dir)) segs s = sequential_Dir_Lookup dir segs s.
Proof.
  intros Hfail. revert dir s. induction segs as [|name segs IH]; intros dir s; [done|].
  cbn [resolve_segments sequential_Dir_Lookup].
  destruct (call_Dir_Lookup dir name s) as [[node [e|]] s'] eqn:Hcall.
  - apply call_Dir_Lookup_inv in Hcall as [Hcall _]. by rewrite (Hfail _ _ _ _ _ _ Hcall).
  - destruct segs as [|name' segs]; [done|].
    destruct node as [[dir'|file]|]; [apply IH|done..].
Qed.

(** A failed resolution returns no node. *)
Lemma resolve_segments_error_nil node segs s :
  let r := (resolve_segments node segs s).1 in r.2 ≠ None → r.1 = None.
Proof.
  revert node s. induction segs as [|name segs IH]; intros node s;
    cbn [resolve_segments]; [done|].
  destruct node as [[dir|file]|]; [|done..].
  destruct (call_Dir_Lookup dir name s) as [[node' [e|]] s']; [done|apply IH].
Qed.

(** A successful one returns the node it started from or one that
    [Dir.Lookup] returned without an error. *)
Lemma resolve_segments_ok_node node segs s :
  Dir_Lookup_finds_node → node ≠ None →
  let r := (resolve_segments node segs s).1 in r.2 = None → r.1 ≠ None.
Proof.
  intros Hfinds. revert node s. induction segs as [|name segs IH]; intros node s Hnode;
    cbn [resolve_segments]; [done|].
  destruct node as [[dir|file]|]; [|done..].
  destruct (call_Dir_Lookup dir name s) as [[node' [e|]] s'] eqn:Hcall; [done|].
  apply call_Dir_Lookup_inv in Hcall as [Hcall _]. apply IH. by eapply Hfinds.
Qed.

End Resolution.

(** ** [FS.Lookup] *)

Section FS_Lookup_properties.
Context `{Package}.

(** C1.  For every path made of non-empty segments joined by single slashes,
    with no leading, trailing or doubled slash (["a/b/c"]), [FS.Lookup]
    returns the node and the error, and leaves the state, that calling
    [Dir.Lookup] on each segment in turn, starting from the root directory,
    ends with.  [Dir.Lookup], which is not part of [fs.go], is taken to
    return no node when it returns an error. *)
Theorem FS_Lookup_sequential fsys segs s :
  Dir_Lookup_fails_without_node → Forall is_segment segs →
  FS_Lookup fsys (join_slash segs) s = sequential_Dir_Lookup (root fsys) segs s.
Proof.
  intros Hfail Hsegs.
  by rewrite FS_Lookup_segments, segments_join_slash, resolve_segments_sequential.
Qed.

(** C2.  When the resolution of [path] arrives at a file and a non-empty
    segment is still to be resolved ([rest], after a slash), [FS.Lookup]
    returns no node and the error [ENOENT], having made no further call. *)
Theorem FS_Lookup_through_File fsys path rest file s s' :
  FS_Lookup fsys path s = ((Some (NFile file), None), s') → segments rest ≠ [] →
  FS_Lookup fsys (path +:+ "/" +:+ rest) s = ((None, Some ENOENT), s').
Proof.
  rewrite !FS_Lookup_segments. intros Hfile Hrest.
  change (path +:+ "/" +:+ rest) with (path +:+ String "/" rest).
  rewrite segments_app_slash, resolve_segments_app, Hfile.
  by apply resolve_segments_not_Dir.
Qed.

(** C4.  [FS.Lookup] of the empty path returns the root node and no error.
    For every path the empty pieces between slashes are skipped: the lookup
    resolves the segments of the path, so two paths with the same segments
    resolve alike; a leading slash, a trailing slash and a doubled slash
    change nothing, and ["a/b"] and ["/a//b/"] resolve alike. *)
Theorem FS_Lookup_skips_empty_segments fsys s :
  FS_Lookup fsys "" s = ((Some (NDir (root fsys)), None), s)
  ∧ (∀ path,
      FS_Lookup fsys path s = resolve_segments (Some (NDir (root fsys))) (segments path) s)
  ∧ (∀ p q, segments p = segments q → FS_Lookup fsys p s = FS_Lookup fsys q s)
  ∧ (∀ p, FS_Lookup fsys ("/" +:+ p) s = FS_Lookup fsys p s)
  ∧ (∀ p, FS_Lookup fsys (p +:+ "/") s = FS_Lookup fsys p s)
  ∧ (∀ p q, FS_Lookup fsys (p +:+ "//" +:+ q) s = FS_Lookup fsys (p +:+ "/" +:+ q) s)
  ∧ FS_Lookup fsys "a/b" s = FS_Lookup fsys "/a//b/" s.
Proof.
  split_and!.
  - done.
  - intros path. apply FS_Lookup_segments.
  - intros p q Hpq. by rewrite !FS_Lookup_segments, Hpq.
  - intros p. by rewrite !FS_Lookup_segments, segments_leading_slash.
  - intros p. by rewrite !FS_Lookup_segments, segments_trailing_slash.
  - intros p q. by rewrite !FS_Lookup_segments, segments_double_slash.
  - by rewrite !FS_Lookup_segments.
Qed.

(** C5.  When a call of [Dir.Lookup] made by [FS.Lookup] returns an error,
    [FS.Lookup] returns that very error, with no node, and that call is the
    last one it makes: no later segment is looked up. *)
Theorem FS_Lookup_error_verbatim fsys path s pre d name node e post :
  calls (FS_Lookup fsys path s).2
    = calls s ++ pre ++ CallDirLookup d name node (Some e) :: post →
  (FS_Lookup fsys path s).1 = (None, Some e) ∧ post = [].
Proof.
  rewrite FS_Lookup_segments.
  destruct (resolve_segments _ _ s) as [r s'] eqn:Hres. cbn [fst snd].
  apply resolve_segments_calls in Hres as (tr & -> & Hlast).
  intros Htr%(inj (app (calls s))). by eapply Hlast.
Qed.

(** C10.  [FS.Lookup] returns either a node or an error, never both and
    never neither: with an error the node is nil, and without an error the
    node is not nil.  For the second half [Dir.Lookup], which is not part
    of [fs.go], is taken to return a node when it returns no error. *)
Theorem FS_Lookup_node_xor_error fsys path s :
  let r := (FS_Lookup fsys path s).1 in
  (r.2 ≠ None → r.1 = None) ∧ (Dir_Lookup_finds_node → r.2 = None → r.1 ≠ None).
Proof.
  rewrite FS_Lookup_segments. split.
  - apply resolve_segments_error_nil.
  - intros Hfinds. by apply resolve_segments_ok_node.
Qed.

End FS_Lookup_properties.

(** ** [PollChanges], [Root], [Statfs] *)

Section FS_properties.
Context `{Package}.

(** C7.  When the backend has no [DirChangeNotify], [PollChanges] returns
    the FS it was given and changes nothing, whatever the interval: the
    world is untouched and no call is logged.  The same holds for any
    number of calls in a row, two in particular. *)
Theorem PollChanges_without_notify fsys :
  DirChangeNotify (f fsys) = None →
  (∀ pollInterval s, PollChanges fsys pollInterval s = (fsys, s))
  ∧ (∀ pollIntervals s, PollChanges_repeatedly fsys pollIntervals s = (fsys, s))
  ∧ (∀ i1 i2 s, PollChanges_repeatedly fsys [i1; i2] s = (fsys, s)).
Proof.
  intros Hnil.
  assert (Hone : ∀ pollInterval s, PollChanges fsys pollInterval s = (fsys, s))
    by (intros; unfold PollChanges; by rewrite Hnil).
  assert (Hall : ∀ pollIntervals s, PollChanges_repeatedly fsys pollIntervals s = (fsys, s)).
  { induction pollIntervals as [|i rest IH]; intros s; [done|].
    cbn [PollChanges_repeatedly]. by rewrite Hone. }
  auto.
Qed.

(** C8.  [Root] returns the root directory of the FS and a nil error, for
    every FS; for the FS that [NewFS] constructs, that directory is the one
    [newDir] made for it. *)
Theorem Root_of_NewFS f0 s :
  (∀ fsys, Root fsys = (root fsys, None))
  ∧ Root (NewFS f0 s).1 = (root (NewFS f0 s).1, None)
  ∧ root (NewFS f0 s).1 =
      (newDir f0 None (fs_NewDir "" (time_Now (world s)).1) (time_Now (world s)).2).1.
Proof.
  split_and!; [done..|]. unfold NewFS.
  destruct (time_Now (world s)) as [now w1]. cbn [fst snd].
  destruct (newDir f0 None (fs_NewDir "" now) w1) as [rootDir w2]. cbn [fst snd].
  destruct (0 <? PollInterval); [|done]. by destruct (PollChanges _ _ _).
Qed.

(** C9.  [Statfs] returns nil for every FS; it computes nothing. *)
Theorem Statfs_returns_nil fsys : Statfs fsys = None.
Proof. done. Qed.

End FS_properties.

(** ** [NewInode] *)

Lemma NewInode_below c :
  0 ≤ c → c + 1 < uint64_modulus → NewInode c = (c + 1, c + 1).
Proof.
  intros Hc Hlt. unfold NewInode, atomic_AddUint64.
  by rewrite Z.mod_small by lia.
Qed.

Lemma NewInode_calls_below n c :
  0 ≤ c → c + Z.of_nat n < uint64_modulus →
  NewInode_calls n c = ((λ k, c + Z.of_nat k) <$> seq 1 n, c + Z.of_nat n).
Proof.
  revert c. induction n as [|n IH]; intros c Hc Hlt.
  { cbn. f_equal. lia. }
  cbn [NewInode_calls]. rewrite NewInode_below by lia. rewrite IH by lia.
  cbn [seq fmap list_fmap]. rewrite <-(fmap_S_seq 1), <-list_fmap_compose.
  f_equal; [|lia]. f_equal. apply list_fmap_ext. intros ? k ?. cbn. lia.
Qed.

Lemma NewInode_calls_app n k c :
  NewInode_calls (n + k) c =
    let '(inodes1, c1) := NewInode_calls n c in
    let '(inodes2, c2) := NewInode_calls k c1 in
    (inodes1 ++ inodes2, c2).
Proof.
  revert c. induction n as [|n IH]; intros c; cbn [NewInode_calls Nat.add].
  { by destruct (NewInode_calls k c). }
  destruct (NewInode c) as [inode c1]. rewrite IH.
  destruct (NewInode_calls n c1) as [inodes1 c2]. by destruct (NewInode_calls k c2).
Qed.

(** The call after 2^64 - 1 calls returns 0. *)
Lemma NewInode_wraps n : Z.of_nat n = uint64_modulus - 1 → 0 ∈ NewInode_run (n + 1).
Proof.
  intros Hn. unfold NewInode_run. rewrite NewInode_calls_app.
  rewrite NewInode_calls_below by (unfold inodeCount_init, uint64_modulus in *; lia).
  cbn [NewInode_calls]. unfold NewInode, atomic_AddUint64.
  replace (inodeCount_init + Z.of_nat n + 1) with uint64_modulus
    by (unfold inodeCount_init; lia).
  rewrite Z.mod_same by done. cbn [fst]. apply elem_of_app. right. by left.
Qed.

Lemma seq_StronglySorted (a n : nat) : StronglySorted Z.lt (Z.of_nat <$> seq a n).
Proof.
  revert a. induction n as [|n IH]; intros a; cbn; constructor; [apply IH|].
  apply Forall_fmap, Forall_forall. intros k [Hk _]%elem_of_seq. cbn. lia.
Qed.

(** C3, amended.  The first [n] calls of [NewInode], for [n] below 2^64,
    return exactly 1, 2, ..., n in this order: strictly increasing, pairwise
    distinct, never 0, the first one being 1. *)
Theorem NewInode_contract n : Z.of_nat n < uint64_modulus → inode_contract n.
Proof.
  intros Hn. unfold inode_contract, NewInode_run.
  rewrite NewInode_calls_below by (unfold inodeCount_init; lia). cbn [fst].
  assert (Heq : (λ k, inodeCount_init + Z.of_nat k) <$> seq 1 n = Z.of_nat <$> seq 1 n)
    by (by apply list_fmap_ext).
  rewrite Heq. split_and!.
  - done.
  - apply seq_StronglySorted.
  - apply (NoDup_fmap_2 _), NoDup_seq.
  - intros (k & Hk & [? _]%elem_of_seq)%list_elem_of_fmap. lia.
  - intros i. destruct n; [done|]. by intros [= <-].
Qed.

(** C3 as stated fails at the 2^64-th call, which returns 0: the counter
    is a [uint64] and wraps around. *)
Lemma NewInode_contract_wraps : ¬ inode_contract (Z.to_nat uint64_modulus).
Proof.
  replace (Z.to_nat uint64_modulus) with (Z.to_nat (uint64_modulus - 1) + 1)%nat
    by (unfold uint64_modulus; lia).
  intros (_ & _ & _ & Hzero & _). apply Hzero, NewInode_wraps.
  unfold uint64_modulus. lia.
Qed.

(** ** The order on backend paths *)

Lemma string_lt_lex s t : string_lt s t = true ↔ lex_lt s t.
Proof.
  revert t. induction s as [|a s IH]; intros [|b t]; cbn [string_lt].
  - split; [done|inversion 1].
  - split; [constructor|done].
  - split; [done|inversion 1].
  - destruct (N.ltb_spec (N_of_ascii a) (N_of_ascii b)) as [Hab|Hab].
    { split; [by constructor|done]. }
    destruct (N.ltb_spec (N_of_ascii b) (N_of_ascii a)) as [Hba|Hba].
    { split; [done|]. inversion 1; subst; [lia|]. lia. }
    assert (a = b) as ->.
    { rewrite <-(ascii_N_embedding a), <-(ascii_N_embedding b). f_equal. lia. }
    rewrite IH. split; [by apply lex_lt_tail|]. inversion 1; subst; [lia|done].
Qed.

Lemma lex_lt_irrefl s : ¬ lex_lt s s.
Proof. induction s as [|a s IH]; inversion 1; subst; [lia|done]. Qed.

Lemma lex_lt_trans s t u : lex_lt s t → lex_lt t u → lex_lt s u.
Proof.
  intros Hst. revert u. induction Hst as [c t|a b s t Hab|a s t Hst IH]; intros u Htu;
    inversion Htu; subst.
  - apply lex_lt_prefix.
  - apply lex_lt_prefix.
  - apply lex_lt_byte. lia.
  - by apply lex_lt_byte.
  - by apply lex_lt_byte.
  - by apply lex_lt_tail, IH.
Qed.

Lemma lex_lt_trichotomy s t : lex_lt s t ∨ s = t ∨ lex_lt t s.
Proof.
  revert t. induction s as [|a s IH]; intros [|b t].
  - by right; left.
  - left. constructor.
  - right; right. constructor.
  - destruct (N.lt_trichotomy (N_of_ascii a) (N_of_ascii b)) as [Hab|[Hab|Hab]].
    + left. by constructor.
    + assert (a = b) as ->.
      { rewrite <-(ascii_N_embedding a), <-(ascii_N_embedding b). by f_equal. }
      destruct (IH t) as [?|[->|?]];
        [left; by apply lex_lt_tail|by right; left|right; right; by apply lex_lt_tail].
    + right; right. by constructor.
Qed.

#[local] Instance lex_le_trans : Transitive lex_le.
Proof.
  intros s t u [->|Hst] [->|Htu]; [by left|by right..|]. right. by eapply lex_lt_trans.
Qed.

#[local] Instance lex_le_antisymm : AntiSymm (=) lex_le.
Proof.
  intros s t [->|Hst] [Heq|Hts]; [done..|].
  destruct (lex_lt_irrefl s). by eapply lex_lt_trans.
Qed.

Lemma string_lt_true_le s t : string_lt s t = true → lex_le s t.
Proof. intros ?%string_lt_lex. by right. Qed.

Lemma string_lt_false_le s t : string_lt s t = false → lex_le t s.
Proof.
  intros Hlt. destruct (lex_lt_trichotomy s t) as [Hst%string_lt_lex|[->|Hts]];
    [congruence|by left|by right].
Qed.

Lemma string_lt_true_ne s t : string_lt s t = true → s ≠ t.
Proof. intros Hlt%string_lt_lex ->. by apply lex_lt_irrefl in Hlt. Qed.

(** ** Sorting [Nodes] *)

Section Sorting.
Context `{Package}.

Lemma insert_desc_Permutation acc x : insert_desc acc x ≡ₚ x :: acc.
Proof.
  induction acc as [|y acc IH]; cbn [insert_desc]; [done|].
  destruct (string_lt _ _); [|done]. by rewrite IH, Permutation_swap.
Qed.

Lemma insert_desc_sorted acc x :
  StronglySorted (flip Remote_le) acc → StronglySorted (flip Remote_le) (insert_desc acc x).
Proof.
  induction 1 as [|y acc Hacc IH Hy]; cbn [insert_desc]; [by repeat constructor|].
  destruct (string_lt _ _) eqn:Hlt.
  - constructor; [done|]. rewrite insert_desc_Permutation. constructor; [|done].
    by apply string_lt_true_le.
  - apply string_lt_false_le in Hlt. constructor; [by constructor|].
    constructor; [done|]. eapply Forall_impl; [done|].
    intros z Hz. unfold flip, Remote_le in *. by etrans.
Qed.

(** Insertion keeps the nodes of one path in the order they had. *)
Lemma insert_desc_stable r acc x :
  filter (λ n, Node_Remote n = r) (reverse (insert_desc acc x)) =
  filter (λ n, Node_Remote n = r) (reverse acc ++ [x]).
Proof.
  induction acc as [|y acc IH]; cbn [insert_desc]; [done|].
  destruct (string_lt _ _) eqn:Hlt; [|by rewrite reverse_cons].
  apply string_lt_true_ne in Hlt.
  rewrite !reverse_cons, !filter_app, IH, filter_app, <-!app_assoc. f_equal.
  destruct (decide (Node_Remote x = r)) as [Hx|Hx], (decide (Node_Remote y = r)) as [Hy|Hy];
    [congruence|..].
  - by rewrite (filter_cons_True _ x), (filter_cons_False _ y), !filter_nil by done.
  - by rewrite (filter_cons_False _ x), (filter_cons_True _ y), !filter_nil by done.
  - by rewrite (filter_cons_False _ x), (filter_cons_False _ y), !filter_nil by done.
Qed.

Lemma insertion_model_Permutation sorted rest : insertion_model sorted rest ≡ₚ sorted ++ rest.
Proof.
  unfold insertion_model. rewrite reverse_Permutation.
  revert sorted. induction rest as [|x rest IH]; intros sorted; cbn [foldl].
  - by rewrite reverse_Permutation, app_nil_r.
  - specialize (IH (reverse (insert_desc (reverse sorted) x))).
    rewrite reverse_involutive in IH. rewrite IH.
    rewrite reverse_Permutation, insert_desc_Permutation, reverse_Permutation.
    apply Permutation_middle.
Qed.

Lemma foldl_insert_desc_sorted acc rest :
  StronglySorted (flip Remote_le) acc →
  StronglySorted (flip Remote_le) (foldl insert_desc acc rest).
Proof.
  revert acc. induction rest as [|x rest IH]; intros acc Hacc; cbn [foldl]; [done|].
  by apply IH, insert_desc_sorted.
Qed.

Lemma StronglySorted_reverse_flip {A} (R : relation A) l :
  StronglySorted (flip R) l → StronglySorted R (reverse l).
Proof.
  induction 1 as [|x l Hl IH Hx]; [constructor|].
  rewrite reverse_cons. apply StronglySorted_app_2; [|done|by repeat constructor].
  intros y z Hy ->%list_elem_of_singleton. rewrite elem_of_reverse in Hy.
  rewrite Forall_forall in Hx. exact (Hx y Hy).
Qed.

Lemma StronglySorted_fmap_2 {A B} (f : A → B) (R : relation B) l :
  StronglySorted (λ x y, R (f x) (f y)) l → StronglySorted R (f <$> l).
Proof.
  induction 1 as [|x l Hl IH Hx]; cbn; constructor; [done|]. by apply Forall_fmap.
Qed.

Lemma insertion_model_sorted rest : StronglySorted Remote_le (insertion_model [] rest).
Proof. apply StronglySorted_reverse_flip, foldl_insert_desc_sorted. constructor. Qed.

Lemma insertion_model_stable r sorted rest :
  filter (λ n, Node_Remote n = r) (insertion_model sorted rest) =
  filter (λ n, Node_Remote n = r) (sorted ++ rest).
Proof.
  unfold insertion_model. revert sorted.
  induction rest as [|x rest IH]; intros sorted; cbn [foldl].
  - by rewrite reverse_involutive, app_nil_r.
  - specialize (IH (reverse (insert_desc (reverse sorted) x))).
    rewrite reverse_involutive in IH. change (x :: rest) with ([x] ++ rest).
    rewrite IH, !filter_app, insert_desc_stable.
    by rewrite reverse_involutive, filter_app, <-app_assoc.
Qed.

End Sorting.

Section Sort_interface.
Context `{Package}.

Lemma Nodes_Less_lookup (ns : Nodes) i j x y :
  ns !! i = Some x → ns !! j = Some y →
  Less ns i j = Some (string_lt (Node_Remote x) (Node_Remote y)).
Proof. intros Hi Hj. cbn. unfold Nodes_Less. by rewrite Hi, Hj. Qed.

Lemma Nodes_Less_adjacent (pre : Nodes) y x post :
  Less (pre ++ y :: x :: post) (S (length pre)) (length pre)
  = Some (string_lt (Node_Remote x) (Node_Remote y)).
Proof.
  apply Nodes_Less_lookup; [|by apply list_lookup_middle].
  rewrite lookup_app_r by lia. by replace (S (length pre) - length pre)%nat with 1%nat by lia.
Qed.

Lemma Nodes_Swap_adjacent (pre : Nodes) y x post :
  Swap (pre ++ y :: x :: post) (S (length pre)) (length pre) = Some (pre ++ x :: y :: post).
Proof.
  cbn. unfold Nodes_Swap.
  rewrite (lookup_app_r pre _ (S _)), (list_lookup_middle pre _ y (length pre)) by (done || lia).
  replace (S (length pre) - length pre)%nat with 1%nat by lia. cbn.
  rewrite !insert_app_r_alt by lia.
  replace (S (length pre) - length pre)%nat with 1%nat by lia.
  by rewrite Nat.sub_diag.
Qed.

(** The inner loop moves the element at [j] down into the sorted part
    before it. *)
Lemma insertionSort_inner_model (pre : Nodes) x post :
  insertionSort_inner (pre ++ x :: post) 0 (length pre)
  = Some (reverse (insert_desc (reverse pre) x) ++ post).
Proof.
  revert post. induction pre as [|y pre IH] using rev_ind; intros post; [done|].
  rewrite length_app, Nat.add_1_r, reverse_snoc. cbn [insertionSort_inner insert_desc].
  rewrite decide_True by lia. rewrite <-app_assoc. cbn [app].
  rewrite Nodes_Less_adjacent. cbn [mbind option_bind].
  destruct (string_lt _ _).
  - rewrite Nodes_Swap_adjacent. cbn [mbind option_bind].
    by rewrite IH, reverse_cons, <-app_assoc.
  - by rewrite !reverse_cons, reverse_involutive, <-!app_assoc.
Qed.

Lemma insertionSort_outer_model (sorted rest : Nodes) :
  insertionSort_outer (sorted ++ rest) 0 (length sorted) (length rest)
  = Some (insertion_model sorted rest).
Proof.
  unfold insertion_model. revert sorted.
  induction rest as [|x rest IH]; intros sorted; cbn [insertionSort_outer length foldl].
  { by rewrite app_nil_r, reverse_involutive. }
  rewrite insertionSort_inner_model. cbn [mbind option_bind].
  specialize (IH (reverse (insert_desc (reverse sorted) x))).
  rewrite length_reverse, reverse_involutive in IH.
  assert (Hlen : length (insert_desc (reverse sorted) x) = S (length sorted))
    by (by rewrite insert_desc_Permutation; cbn; rewrite length_reverse).
  by rewrite Hlen in IH.
Qed.

Lemma sort_Nodes_model ns : sort_Nodes ns = Some (insertion_model [] ns).
Proof.
  unfold sort_Nodes, insertionSort. destruct ns as [|x rest]; [done|].
  cbn [Len Nodes_sort_Interface Nodes_Len length Nat.add].
  replace (S (length rest) - 1)%nat with (length rest) by lia.
  exact (insertionSort_outer_model [x] rest).
Qed.

(** A slice with no [Less]-inversion lists the backend paths in ascending
    order. *)
Lemma Nodes_sorted_StronglySorted ns : Nodes_sorted ns → StronglySorted Remote_le ns.
Proof.
  induction ns as [|x ns IH]; intros Hsorted; constructor.
  - apply IH. intros i j Hij.
    specialize (Hsorted (S i) (S j)). cbn in *. apply Hsorted. lia.
  - apply Forall_lookup_2. intros k z Hz.
    specialize (Hsorted 0%nat (S k)).
    rewrite (Nodes_Less_lookup (x :: ns) (S k) 0 z x) in Hsorted by done.
    apply string_lt_false_le. apply lookup_lt_Some in Hz.
    assert (Hlt : Some (string_lt (Node_Remote z) (Node_Remote x)) = Some false)
      by (apply Hsorted; cbn; lia).
    by injection Hlt.
Qed.

Lemma StronglySorted_Nodes_sorted ns : StronglySorted Remote_le ns → Nodes_sorted ns.
Proof.
  induction 1 as [|x ns Hns IH Hx]; intros i j Hij; cbn in Hij; [lia|].
  destruct j as [|j]; [lia|]. destruct i as [|i]; [|apply IH; lia].
  destruct (lookup_lt_is_Some_2 ns j) as [y Hy]; [lia|].
  rewrite (Nodes_Less_lookup (x :: ns) (S j) 0 y x) by done. f_equal.
  rewrite Forall_forall in Hx. specialize (Hx y (list_elem_of_lookup_2 _ _ _ Hy)).
  destruct (string_lt _ _) eqn:Hlt; [|done]. apply string_lt_lex in Hlt.
  destruct (lex_lt_irrefl (Node_Remote y)).
  destruct Hx as [Hx|Hx]; [by rewrite Hx in Hlt|by eapply lex_lt_trans].
Qed.

End Sort_interface.

Section Nodes_ordering.
Context `{Package}.


End Nodes_ordering.

(** ** The properties on the test tree *)

Section TestTree_runs.
Import TestTree.

Lemma test_Lookup_fails_without_node : Dir_Lookup_fails_without_node.
Proof.
  intros d name w node e w'. cbn. unfold test_Lookup.
  destruct (decide (name = "broken")); [by intros [= <- _ _]|].
  destruct (list_find _ entries) as [[? [? []]]|]; by intros [=].
Qed.

Lemma test_Lookup_finds_node : Dir_Lookup_finds_node.
Proof.
  intros d name w node w'. cbn. unfold test_Lookup.
  destruct (decide (name = "broken")); [by intros [=]|].
  destruct (list_find _ entries) as [[? [? []]]|]; by intros [= <- _].
Qed.

Lemma test_is_segment_a : is_segment "a".
Proof. split; [done|compute_done]. Qed.

Lemma test_is_segment_d : is_segment "d".
Proof. split; [done|compute_done]. Qed.

Lemma test_is_segment_e : is_segment "e".
Proof. split; [done|compute_done]. Qed.

Lemma FS_Lookup_sequential_witness :
  Dir_Lookup_fails_without_node
  ∧ Forall is_segment ["a"; "d"; "e"]
  ∧ FS_Lookup test_fs "a/d/e" test_state
    = sequential_Dir_Lookup (root test_fs) ["a"; "d"; "e"] test_state.
Proof.
  assert (Hsegs : Forall is_segment ["a"; "d"; "e"])
    by (repeat first [apply Forall_nil_2 | apply Forall_cons_2];
        [apply test_is_segment_a|apply test_is_segment_d|apply test_is_segment_e]).
  split_and!; [apply test_Lookup_fails_without_node|done|].
  exact (FS_Lookup_sequential test_fs ["a"; "d"; "e"] test_state
           test_Lookup_fails_without_node Hsegs).
Defined.

Lemma FS_Lookup_through_File_witness :
  FS_Lookup test_fs "a/b" test_state
    = ((Some (NFile "a/b"), None),
       {| world := 2%nat;
          calls := [CallDirLookup "" "a" (Some (NDir "a")) None;
                    CallDirLookup "a" "b" (Some (NFile "a/b")) None] |})
  ∧ segments "c" ≠ []
  ∧ FS_Lookup test_fs "a/b/c" test_state
    = ((None, Some ENOENT),
       {| world := 2%nat;
          calls := [CallDirLookup "" "a" (Some (NDir "a")) None;
                    CallDirLookup "a" "b" (Some (NFile "a/b")) None] |}).
Proof.
  split_and!; [by vm_compute|done|].
  apply (FS_Lookup_through_File test_fs "a/b" "c" "a/b" test_state); [by vm_compute|done].
Defined.

Lemma FS_Lookup_skips_empty_segments_witness :
  segments "a/b" = segments "/a//b/"
  ∧ FS_Lookup test_fs "a/b" test_state = FS_Lookup test_fs "/a//b/" test_state.
Proof.
  assert (Hsegs : segments "a/b" = segments "/a//b/") by done.
  split; [done|].
  destruct (FS_Lookup_skips_empty_segments test_fs test_state) as (_ & _ & Hsame & _).
  exact (Hsame "a/b" "/a//b/" Hsegs).
Defined.

Lemma FS_Lookup_error_verbatim_witness :
  calls (FS_Lookup test_fs "a/broken/c" test_state).2
    = calls test_state ++ [CallDirLookup "" "a" (Some (NDir "a")) None]
        ++ CallDirLookup "a" "broken" None (Some EIO) :: []
  ∧ (FS_Lookup test_fs "a/broken/c" test_state).1 = (None, Some EIO)
  ∧ @nil Call = [].
Proof.
  assert (Hcalls : calls (FS_Lookup test_fs "a/broken/c" test_state).2
    = calls test_state ++ [CallDirLookup "" "a" (Some (NDir "a")) None]
        ++ CallDirLookup "a" "broken" None (Some EIO) :: []) by (by vm_compute).
  split; [done|].
  exact (FS_Lookup_error_verbatim test_fs "a/broken/c" test_state _ _ _ _ _ _ Hcalls).
Defined.

Lemma FS_Lookup_node_xor_error_witness :
  Dir_Lookup_finds_node
  ∧ (FS_Lookup test_fs "a/d/e" test_state).1.2 = None
  ∧ (FS_Lookup test_fs "a/d/e" test_state).1.1 ≠ None.
Proof.
  assert (Hnil : (FS_Lookup test_fs "a/d/e" test_state).1.2 = None) by (by vm_compute).
  split_and!; [apply test_Lookup_finds_node|done|].
  destruct (FS_Lookup_node_xor_error test_fs "a/d/e" test_state) as [_ Hnode].
  exact (Hnode test_Lookup_finds_node Hnil).
Defined.

Lemma PollChanges_without_notify_witness :
  DirChangeNotify (f test_fs) = None
  ∧ PollChanges test_fs 60 test_state = (test_fs, test_state)
  ∧ PollChanges_repeatedly test_fs [60; 30] test_state = (test_fs, test_state).
Proof.
  assert (Hnil : DirChangeNotify (f test_fs) = None) by done.
  split; [done|].
  destruct (PollChanges_without_notify test_fs Hnil) as (Hone & Hall & _).
  split; [apply Hone|apply Hall].
Defined.


End TestTree_runs.

Lemma NewInode_contract_witness : Z.of_nat 4 < uint64_modulus ∧ inode_contract 4.
Proof.
  assert (Hn : Z.of_nat 4 < uint64_modulus) by done.
  split; [done|exact (NewInode_contract 4 Hn)].
Defined.

(** * Further properties of [fs.go] *)

(** ** The step of the loop of [Lookup] *)

Lemma take_drop_bytes n s : take_bytes n s +:+ drop_bytes n s = s.
Proof.
  revert s. induction n as [|n IH]; intros [|a s]; [done..|].
  change (String a (take_bytes n s +:+ drop_bytes n s) = String a s). by rewrite IH.
Qed.

Lemma IndexByte_none s c : IndexByte s c < 0 → c ∉ list_ascii_of_string s.
Proof.
  induction s as [|a s IH]; cbn; [intros _; by apply not_elem_of_nil|].
  destruct (Ascii.eqb_spec a c) as [->|Hne]; [lia|].
  destruct (Z.ltb_spec (IndexByte s c) 0) as [Hlt|Hge];
    [|destruct (IndexByte_range s c); lia].
  intros _. apply not_elem_of_cons. split; [done|by apply IH].
Qed.

Lemma IndexByte_some s c :
  0 ≤ IndexByte s c →
  drop_bytes (Z.to_nat (IndexByte s c)) s
    = String c (drop_bytes (S (Z.to_nat (IndexByte s c))) s)
  ∧ c ∉ list_ascii_of_string (take_bytes (Z.to_nat (IndexByte s c)) s).
Proof.
  induction s as [|a s IH]; cbn; [lia|].
  destruct (Ascii.eqb_spec a c) as [->|Hne].
  { intros _. split; [done|apply not_elem_of_nil]. }
  destruct (Z.ltb_spec (IndexByte s c) 0) as [Hlt|Hge]; [lia|].
  intros _. replace (Z.to_nat (IndexByte s c + 1)) with (S (Z.to_nat (IndexByte s c))) by lia.
  destruct (IH Hge) as [Hdrop Htake]. cbn. split; [done|].
  apply not_elem_of_cons. by split.
Qed.

(** X1.  In the loop of [Lookup], when the path has no slash the name is
    the whole path; otherwise the index is within the path, the name has
    no slash, and the name, a slash and the rest give back the path. *)
Theorem Lookup_split_roundtrip path :
  let i := IndexRune path "/" in
  if i <? 0 then "/"%char ∉ list_ascii_of_string path
  else 0 ≤ i < Z.of_nat (String.length path)
       ∧ ("/"%char ∉ list_ascii_of_string (slice_hi path i))
       ∧ slice_hi path i +:+ "/" +:+ slice_lo path (i + 1) = path.
Proof.
  unfold IndexRune, slice_hi, slice_lo. cbn zeta.
  destruct (Z.ltb_spec (IndexByte path "/") 0) as [Hlt|Hge].
  { by apply IndexByte_none. }
  destruct (IndexByte_some path "/" Hge) as [Hdrop Htake].
  split_and!; [lia|destruct (IndexByte_range path "/"); lia|done|].
  replace (Z.to_nat (IndexByte path "/" + 1)) with (S (Z.to_nat (IndexByte path "/"))) by lia.
  change (?n +:+ "/" +:+ ?r) with (n +:+ String "/" r).
  by rewrite <-Hdrop, take_drop_bytes.
Qed.

(** ** Lookups compose *)

Section Lookup_composition.
Context `{Package}.

(** X2.  Looking up [p/q] is looking up [p] and, when that succeeds,
    going on with [q] from the node and in the state it ended in; when [p]
    fails, [p/q] fails in the same way, in the same state. *)
Theorem FS_Lookup_compose fsys p q s :
  FS_Lookup fsys (p +:+ "/" +:+ q) s =
    match FS_Lookup fsys p s with
    | ((node, None), s') => Lookup_loop node q s'
    | failed => failed
    end.
Proof.
  unfold FS_Lookup. rewrite !Lookup_loop_segments.
  change (p +:+ "/" +:+ q) with (p +:+ String "/" q).
  rewrite segments_app_slash, resolve_segments_app.
  destruct (resolve_segments _ (segments p) s) as [[node [e|]] s']; [done|].
  by rewrite Lookup_loop_segments.
Qed.

End Lookup_composition.

(** ** What a lookup logs *)

Lemma split_slash_no_slash path :
  Forall (λ seg, "/"%char ∉ list_ascii_of_string seg) (split_slash path).
Proof.
  induction path as [|c p IH]; cbn [split_slash].
  { repeat constructor. apply not_elem_of_nil. }
  destruct (Ascii.eqb_spec c "/") as [->|Hc].
  { constructor; [apply not_elem_of_nil|done]. }
  destruct (split_slash p) as [|seg segs] eqn:Hp; [by apply split_slash_not_nil in Hp|].
  apply Forall_cons in IH as [Hseg Hsegs]. constructor; [|done].
  cbn. apply not_elem_of_cons. by split.
Qed.

Lemma segments_are_segments path : Forall is_segment (segments path).
Proof.
  apply Forall_forall. intros seg [Hne Hin]%list_elem_of_filter. split; [done|].
  by eapply Forall_forall in Hin; [|apply split_slash_no_slash].
Qed.

Section Lookup_log.
Context `{Package}.

Lemma resolve_segments_log node segs s :
  let r := resolve_segments node segs s in
  ∃ tr, calls r.2 = calls s ++ tr
    ∧ Forall is_Dir_Lookup_call tr
    ∧ call_names tr `prefix_of` segs
    ∧ (r.1.2 = None → call_names tr = segs)
    ∧ chained node (world s) tr (world r.2)
    ∧ (r.1.2 = None → r.1.1 = last_node node tr).
Proof.
  revert node s. induction segs as [|name segs IH]; intros node s; cbn [resolve_segments].
  { exists []. cbn. by rewrite app_nil_r. }
  destruct node as [[dir|file]|];
    [|exists []; cbn; rewrite app_nil_r; split_and!; done || apply prefix_nil..].
  destruct (call_Dir_Lookup dir name s) as [[node' err] s1] eqn:Hcall.
  apply call_Dir_Lookup_inv in Hcall as [Hcall Hlog]. destruct err as [e|].
  - exists [CallDirLookup dir name node' (Some e)]. cbn. split_and!; try done.
    + by repeat constructor.
    + apply prefix_cons, prefix_nil.
    + by exists (world s1).
  - destruct (IH node' s1) as (tr & Htr & Hall & Hpre & Hok & Hchain & Hlast).
    exists (CallDirLookup dir name node' None :: tr).
    change (call_names (CallDirLookup dir name node' None :: tr))
      with (name :: call_names tr).
    cbn -[call_names]. split_and!.
    + by rewrite Htr, Hlog, <-app_assoc.
    + by constructor.
    + by apply prefix_cons.
    + intros Hnil. by rewrite Hok.
    + done.
    + by exists (world s1).
    + done.
Qed.

Lemma chained_invariant (I : World → Prop) node w tr w' :
  (∀ d name w, I w → I (Dir_Lookup d name w).2) →
  chained node w tr w' → I w → I w'.
Proof.
  intros Hkeep. revert node w. induction tr as [|[d name node' err|] tr IH]; intros node w; cbn.
  - by intros ->.
  - intros (_ & w1 & Hcall & _ & Hchain) Hw. eapply IH; [done|].
    specialize (Hkeep d name w Hw). by rewrite Hcall in Hkeep.
  - done.
Qed.

(** X3.  [FS.Lookup] only adds [Dir.Lookup] calls to the log, one for each
    non-empty segment of the path, in path order, until one fails: the
    names it passes are an initial part of the segments, and all of them
    when it returns no error. *)
Theorem FS_Lookup_one_call_per_segment fsys path s :
  let r := FS_Lookup fsys path s in
  let tr := new_calls s r.2 in
  calls r.2 = calls s ++ tr
  ∧ Forall is_Dir_Lookup_call tr
  ∧ call_names tr `prefix_of` segments path
  ∧ (r.1.2 = None → call_names tr = segments path).
Proof.
  cbn zeta. rewrite FS_Lookup_segments.
  destruct (resolve_segments_log (Some (NDir (root fsys))) (segments path) s)
    as (tr & Htr & Hall & Hpre & Hok & _).
  unfold new_calls. by rewrite Htr, drop_app_length.
Qed.

(** X4.  Every name [FS.Lookup] passes to [Dir.Lookup] is a path segment:
    it is not empty and holds no slash. *)
Theorem FS_Lookup_names_are_segments fsys path s :
  Forall is_segment (call_names (new_calls s (FS_Lookup fsys path s).2)).
Proof.
  rewrite FS_Lookup_segments.
  destruct (resolve_segments_log (Some (NDir (root fsys))) (segments path) s)
    as (tr & Htr & _ & [rest Hpre] & _).
  unfold new_calls. rewrite Htr, drop_app_length.
  pose proof (segments_are_segments path) as Hsegs. rewrite Hpre in Hsegs.
  by apply Forall_app in Hsegs as [? _].
Qed.

(** X5.  The lookups [FS.Lookup] makes form a chain: the first is made on
    the root directory, each next one on the directory the one before
    returned, in the world the one before left; only the last may have
    failed; the world at the end is the one the last call left.  Without an
    error, the node returned is the one the last lookup returned (the root
    when there was no lookup). *)
Theorem FS_Lookup_chain fsys path s :
  let r := FS_Lookup fsys path s in
  let tr := new_calls s r.2 in
  chained (Some (NDir (root fsys))) (world s) tr (world r.2)
  ∧ (r.1.2 = None → r.1.1 = last_node (Some (NDir (root fsys))) tr).
Proof.
  cbn zeta. rewrite FS_Lookup_segments.
  destruct (resolve_segments_log (Some (NDir (root fsys))) (segments path) s)
    as (tr & Htr & _ & _ & _ & Hchain & Hlast).
  unfold new_calls. by rewrite Htr, drop_app_length.
Qed.

(** X6.  [FS.Lookup] changes the world through [Dir.Lookup] only: whatever
    property of the world every [Dir.Lookup] keeps, [FS.Lookup] keeps. *)
Theorem FS_Lookup_world_invariant (I : World → Prop) fsys path s :
  (∀ d name w, I w → I (Dir_Lookup d name w).2) →
  I (world s) → I (world (FS_Lookup fsys path s).2).
Proof.
  intros Hkeep. rewrite FS_Lookup_segments.
  destruct (resolve_segments_log (Some (NDir (root fsys))) (segments path) s)
    as (tr & _ & _ & _ & _ & Hchain & _).
  by eapply chained_invariant.
Qed.

(** X7.  Cleaning a path, that is dropping its empty segments and joining
    the others by single slashes, does not change what [FS.Lookup] does. *)
Theorem FS_Lookup_clean_path fsys path s :
  FS_Lookup fsys (join_slash (segments path)) s = FS_Lookup fsys path s.
Proof.
  rewrite !FS_Lookup_segments.
  by rewrite segments_join_slash by apply segments_are_segments.
Qed.

End Lookup_log.

(** ** The inode counter, from any value *)

Lemma NewInode_calls_closed n c :
  0 ≤ c < uint64_modulus →
  NewInode_calls n c =
    ((λ k, (c + Z.of_nat k) mod uint64_modulus) <$> seq 1 n,
     (c + Z.of_nat n) mod uint64_modulus).
Proof.
  revert c. induction n as [|n IH]; intros c Hc.
  { cbn. f_equal. rewrite Z.add_0_r. by rewrite Z.mod_small. }
  cbn [NewInode_calls]. unfold NewInode, atomic_AddUint64. cbn zeta.
  rewrite IH by (by apply Z.mod_pos_bound). cbn [seq fmap list_fmap].
  rewrite <-(fmap_S_seq 1), <-list_fmap_compose. f_equal.
  - f_equal. apply list_fmap_ext. intros ? k ?. cbn.
    rewrite Zplus_mod_idemp_l. f_equal. lia.
  - rewrite Zplus_mod_idemp_l. f_equal. lia.
Qed.

Lemma uint64_mod_inj a b :
  a mod uint64_modulus = b mod uint64_modulus → Z.abs (a - b) < uint64_modulus → a = b.
Proof.
  intros Hmod Hclose.
  pose proof (Z.div_mod a uint64_modulus) as Ha.
  pose proof (Z.div_mod b uint64_modulus) as Hb.
  unfold uint64_modulus in *. nia.
Qed.

(** X8.  From any counter value, the k-th of [n] successive [NewInode]
    calls returns the counter plus k modulo 2^64: every value returned is
    within [uint64], and 2^64 further calls leave the counter where it
    was. *)
Theorem NewInode_calls_modular n c :
  0 ≤ c < uint64_modulus →
  (NewInode_calls n c).1 = (λ k, (c + Z.of_nat k) mod uint64_modulus) <$> seq 1 n
  ∧ (NewInode_calls n c).2 = (c + Z.of_nat n) mod uint64_modulus
  ∧ Forall (λ inode, 0 ≤ inode < uint64_modulus) (NewInode_calls n c).1
  ∧ (NewInode_calls (n + Z.to_nat uint64_modulus) c).2 = (NewInode_calls n c).2.
Proof.
  intros Hc. rewrite !NewInode_calls_closed by done. cbn [fst snd]. split_and!; [done..| |].
  - apply Forall_fmap, Forall_forall. intros k _. cbn. by apply Z.mod_pos_bound.
  - rewrite Nat2Z.inj_add, Z2Nat.id by done. rewrite Z.add_assoc.
    rewrite <-Zplus_mod_idemp_r, Z.mod_same, Z.add_0_r by done. done.
Qed.

(** X9.  From any counter value, up to 2^64 successive [NewInode] calls
    return pairwise distinct values. *)
Theorem NewInode_window_distinct n c :
  0 ≤ c < uint64_modulus → Z.of_nat n ≤ uint64_modulus → NoDup (NewInode_calls n c).1.
Proof.
  intros Hc Hn. rewrite NewInode_calls_closed by done. cbn [fst].
  apply NoDup_fmap_2_strong; [|apply NoDup_seq].
  intros k1 k2 [? ?]%elem_of_seq [? ?]%elem_of_seq Heq.
  apply uint64_mod_inj in Heq; lia.
Qed.

(** ** [Swap] and [Less] *)

Lemma swap_index_involutive i j k : swap_index i j (swap_index i j k) = k.
Proof. unfold swap_index. repeat case_decide; congruence. Qed.

#[local] Instance swap_index_inj i j : Inj (=) (=) (swap_index i j).
Proof.
  intros k1 k2 Heq.
  by rewrite <-(swap_index_involutive i j k1), Heq, swap_index_involutive.
Qed.

Section Swap_Less.
Context `{Package}.

Lemma Nodes_Swap_lookup (ns ns' : Nodes) i j k :
  Swap ns i j = Some ns' → ns' !! k = ns !! swap_index i j k.
Proof.
  cbn. unfold Nodes_Swap, swap_index.
  destruct (ns !! i) as [x|] eqn:Hi; [|done]. destruct (ns !! j) as [y|] eqn:Hj; [|done].
  cbn. intros [= <-]. apply lookup_lt_Some in Hi as Hilt. apply lookup_lt_Some in Hj as Hjlt.
  destruct (decide (k = j)) as [->|Hkj].
  - rewrite list_lookup_insert_eq by (by rewrite length_insert).
    by destruct (decide (j = i)) as [->|_].
  - rewrite list_lookup_insert_ne by done. destruct (decide (k = i)) as [->|Hki].
    + by rewrite list_lookup_insert_eq.
    + by rewrite list_lookup_insert_ne.
Qed.

(** X10.  [Swap] within the slice succeeds and exchanges the two nodes:
    the node at every index is the one that was at the index the exchange
    of [i] and [j] maps it to; the length is kept and the slice is a
    rearrangement of the old one. *)
Theorem Nodes_Swap_exchange (ns : Nodes) i j :
  (i < length ns)%nat → (j < length ns)%nat →
  ∃ ns', Nodes_Swap ns i j = Some ns'
    ∧ length ns' = length ns
    ∧ (∀ k, ns' !! k = ns !! swap_index i j k)
    ∧ ns' ≡ₚ ns.
Proof.
  intros [x Hi]%lookup_lt_is_Some_2 [y Hj]%lookup_lt_is_Some_2.
  assert (Hswap : Swap ns i j = Some (<[j := x]> (<[i := y]> ns)))
    by (cbn; unfold Nodes_Swap; by rewrite Hi, Hj).
  eexists. split; [done|].
  assert (Hlen : length (<[j := x]> (<[i := y]> ns)) = length ns)
    by (by rewrite !length_insert).
  split_and!; [done|by intros k; apply Nodes_Swap_lookup|].
  apply Permutation_inj. split; [done|]. exists (swap_index i j).
  split; [apply _|]. intros k. by apply Nodes_Swap_lookup.
Qed.

(** X11.  Swapping the same two indexes again gives the slice back. *)
Theorem Nodes_Swap_involutive (ns ns' : Nodes) i j :
  Nodes_Swap ns i j = Some ns' →
  Nodes_Swap ns' i j = Some ns ∧ Nodes_Swap ns' j i = Some ns.
Proof.
  intros Hswap.
  assert (Hi : ns' !! i = ns !! j).
  { rewrite (Nodes_Swap_lookup ns ns' i j i Hswap). unfold swap_index.
    by rewrite decide_True. }
  assert (Hj : ns' !! j = ns !! i).
  { rewrite (Nodes_Swap_lookup ns ns' i j j Hswap). unfold swap_index.
    case_decide; [by subst|by rewrite decide_True]. }
  assert (Hback : ∀ ns'', (∀ k, ns'' !! k = ns' !! swap_index i j k) → ns'' = ns).
  { intros ns'' Hk. apply list_eq. intros k.
    by rewrite Hk, (Nodes_Swap_lookup ns ns' i j _ Hswap), swap_index_involutive. }
  cbn in Hswap |- *. unfold Nodes_Swap in *. rewrite Hi, Hj.
  destruct (ns !! i) as [x|] eqn:Hx; [|done]. destruct (ns !! j) as [y|] eqn:Hy; [|done].
  cbn in *. split; f_equal; apply Hback; intros k.
  - apply (Nodes_Swap_lookup ns'). cbn. unfold Nodes_Swap. by rewrite Hi, Hj.
  - rewrite (Nodes_Swap_lookup ns' _ j i k); [|cbn; unfold Nodes_Swap; by rewrite Hi, Hj].
    f_equal. unfold swap_index. repeat case_decide; congruence.
Qed.


(** X13.  On the indexes of a slice [Less] is a strict weak order, as
    [sort.Interface] asks: it is irreflexive, asymmetric and transitive, and
    two nodes neither of which is [Less] than the other have the same
    backend path. *)
Theorem Nodes_Less_strict_weak_order (ns : Nodes) i j k x y z :
  ns !! i = Some x → ns !! j = Some y → ns !! k = Some z →
  Less ns i i = Some false
  ∧ (Less ns i j = Some true → Less ns j i = Some false)
  ∧ (Less ns i j = Some true → Less ns j k = Some true → Less ns i k = Some true)
  ∧ (Less ns i j = Some false → Less ns j i = Some false → Node_Remote x = Node_Remote y).
Proof.
  intros Hi Hj Hk.
  rewrite (Nodes_Less_lookup ns i i x x), (Nodes_Less_lookup ns i j x y),
    (Nodes_Less_lookup ns j i y x), (Nodes_Less_lookup ns j k y z),
    (Nodes_Less_lookup ns i k x z) by done.
  split_and!.
  - f_equal. apply not_true_is_false. intros Hlt%string_lt_lex.
    by apply lex_lt_irrefl in Hlt.
  - intros [= Hxy%string_lt_lex]. f_equal. apply not_true_is_false.
    intros Hyx%string_lt_lex. destruct (lex_lt_irrefl (Node_Remote x)).
    by eapply lex_lt_trans.
  - intros [= Hxy%string_lt_lex] [= Hyz%string_lt_lex]. f_equal.
    apply string_lt_lex. by eapply lex_lt_trans.
  - intros [= Hxy%string_lt_false_le] [= Hyx%string_lt_false_le].
    by apply (anti_symm lex_le).
Qed.

(** X14.  When the backend paths of a slice are pairwise distinct, as in
    the listing of one directory, the slice has only one sorted
    rearrangement: the result of sorting it does not depend on the sort
    routine. *)
Theorem Nodes_sorted_unique (ns ns1 ns2 : Nodes) :
  NoDup (Node_Remote <$> ns) →
  ns1 ≡ₚ ns → ns2 ≡ₚ ns → Nodes_sorted ns1 → Nodes_sorted ns2 → ns1 = ns2.
Proof.
  intros Hdistinct Hperm1 Hperm2 Hsorted1 Hsorted2.
  apply (StronglySorted_unique_strong Remote_le);
    [|by apply Nodes_sorted_StronglySorted..|by rewrite Hperm1, Hperm2].
  intros x y Hx Hy Hxy Hyx. rewrite Hperm1 in Hx. rewrite Hperm2 in Hy.
  assert (Hkey : Node_Remote x = Node_Remote y) by (by apply (anti_symm lex_le)).
  clear -Hdistinct Hx Hy Hkey. induction ns as [|n ns IH]; [by apply elem_of_nil in Hx|].
  cbn in Hdistinct. apply NoDup_cons in Hdistinct as [Hn Hns].
  apply elem_of_cons in Hx as [->|Hx], Hy as [->|Hy]; [done| | |by apply IH].
  - destruct Hn. rewrite Hkey. by apply list_elem_of_fmap_2.
  - destruct Hn. rewrite <-Hkey. by apply list_elem_of_fmap_2.
Qed.

End Swap_Less.

(** ** [NewFS] and [PollChanges] *)

Section Construction.
Context `{Package}.

(** X15.  [NewFS] keeps the backend and the five settings as they are
    given, and makes one call at most: it registers the root of the new FS
    with the backend, for [PollInterval], exactly when [PollInterval] is
    positive and the backend can notify. *)
Theorem NewFS_settings_and_registration f0 s :
  let r := NewFS f0 s in
  f r.1 = f0
  ∧ (noSeek r.1, noChecksum r.1, readOnly r.1, noModTime r.1, dirCacheTime r.1)
    = (NoSeek, NoChecksum, ReadOnly, NoModTime, DirCacheTime)
  ∧ calls r.2 =
      calls s ++
      (if 0 <? PollInterval then
         match DirChangeNotify f0 with
         | Some _ => [CallDirChangeNotify f0 (root r.1) PollInterval]
         | None => []
         end
       else []).
Proof.
  unfold NewFS. destruct (time_Now (world s)) as [now w1].
  destruct (newDir f0 None (fs_NewDir "" now) w1) as [rootDir w2].
  assert (Hflag : ∀ b : bool, (if b then true else false) = b) by (by intros []).
  destruct (0 <? PollInterval); unfold PollChanges; cbn [f root calls world];
    [destruct (DirChangeNotify f0)|]; cbn; rewrite !Hflag, ?app_nil_r; done.
Qed.

(** X16.  On a backend that can notify, every [PollChanges] registers
    again: calls in a row return the same FS and make one registration
    each, in order, of the same root, each with its own interval. *)
Theorem PollChanges_registers_each_time fsys notify pollIntervals s :
  DirChangeNotify (f fsys) = Some notify →
  PollChanges_repeatedly fsys pollIntervals s =
    (fsys,
     {| world := foldl (λ w pollInterval, notify (root fsys) pollInterval w)
                   (world s) pollIntervals;
        calls := calls s ++ (CallDirChangeNotify (f fsys) (root fsys) <$> pollIntervals) |}).
Proof.
  intros Hnotify. revert s.
  induction pollIntervals as [|pollInterval rest IH]; intros s; cbn [PollChanges_repeatedly].
  { cbn. rewrite app_nil_r. by destruct s. }
  unfold PollChanges at 1. rewrite Hnotify, IH. cbn. by rewrite <-app_assoc.
Qed.

End Construction.

(** ** The further properties on the test tree *)

Section TestTree_further_runs.
Import TestTree.

Lemma FS_Lookup_one_call_per_segment_witness :
  (FS_Lookup test_fs "/a//d/e" test_state).1.2 = None
  ∧ call_names (new_calls test_state (FS_Lookup test_fs "/a//d/e" test_state).2)
    = segments "/a//d/e".
Proof.
  assert (Hnil : (FS_Lookup test_fs "/a//d/e" test_state).1.2 = None) by (by vm_compute).
  split; [done|].
  destruct (FS_Lookup_one_call_per_segment test_fs "/a//d/e" test_state)
    as (_ & _ & _ & Hall).
  exact (Hall Hnil).
Defined.

Lemma FS_Lookup_chain_witness :
  (FS_Lookup test_fs "a/d" test_state).1.2 = None
  ∧ (FS_Lookup test_fs "a/d" test_state).1.1
    = last_node (Some (NDir (root test_fs)))
        (new_calls test_state (FS_Lookup test_fs "a/d" test_state).2).
Proof.
  assert (Hnil : (FS_Lookup test_fs "a/d" test_state).1.2 = None) by (by vm_compute).
  split; [done|].
  destruct (FS_Lookup_chain test_fs "a/d" test_state) as [_ Hlast].
  exact (Hlast Hnil).
Defined.

Lemma test_Lookup_world_grows (d : Dir) (name : string) (w : World) :
  (5 ≤ w)%nat → (5 ≤ (Dir_Lookup d name w).2)%nat.
Proof.
  cbn. unfold test_Lookup. destruct (decide (name = "broken")); [cbn; lia|].
  destruct (list_find _ entries) as [[? [? []]]|]; cbn; lia.
Qed.

Lemma FS_Lookup_world_invariant_witness :
  (∀ (d : Dir) (name : string) (w : World),
     (5 ≤ w)%nat → (5 ≤ (Dir_Lookup d name w).2)%nat)
  ∧ (5 ≤ world {| world := 5%nat; calls := [] |})%nat
  ∧ (5 ≤ world (FS_Lookup test_fs "a/b" {| world := 5%nat; calls := [] |}).2)%nat.
Proof.
  assert (Hstart : (5 ≤ world {| world := 5%nat; calls := [] |})%nat) by done.
  split_and!; [apply test_Lookup_world_grows|done|].
  exact (FS_Lookup_world_invariant (λ w : World, (5 ≤ w)%nat) test_fs "a/b" _
           test_Lookup_world_grows Hstart).
Defined.

Lemma PollChanges_registers_each_time_witness :
  DirChangeNotify (f test_fs_notify) = Some (λ _ _ w, S w)
  ∧ PollChanges_repeatedly test_fs_notify [60; 30] test_state
    = (test_fs_notify,
       {| world := 2%nat;
          calls := [CallDirChangeNotify true "" 60; CallDirChangeNotify true "" 30] |}).
Proof.
  assert (Hnotify : DirChangeNotify (f test_fs_notify) = Some (λ _ _ w, S w)) by done.
  split; [done|].
  exact (PollChanges_registers_each_time test_fs_notify _ [60; 30] test_state Hnotify).
Defined.

Lemma Nodes_Swap_exchange_witness :
  (0 < length [NFile "b"; NDir "a"; NFile "c"])%nat
  ∧ (2 < length [NFile "b"; NDir "a"; NFile "c"])%nat
  ∧ ∃ ns', Nodes_Swap [NFile "b"; NDir "a"; NFile "c"] 0 2 = Some ns'
      ∧ length ns' = 3%nat
      ∧ (∀ k, ns' !! k = [NFile "b"; NDir "a"; NFile "c"] !! swap_index 0 2 k)
      ∧ ns' ≡ₚ [NFile "b"; NDir "a"; NFile "c"].
Proof.
  assert (H0 : (0 < length [NFile "b"; NDir "a"; NFile "c"])%nat) by (cbn; lia).
  assert (H2 : (2 < length [NFile "b"; NDir "a"; NFile "c"])%nat) by (cbn; lia).
  split_and!; [done..|].
  exact (Nodes_Swap_exchange [NFile "b"; NDir "a"; NFile "c"] 0 2 H0 H2).
Defined.

Lemma Nodes_Swap_involutive_witness :
  Nodes_Swap [NFile "b"; NDir "a"; NFile "c"] 0 2 = Some [NFile "c"; NDir "a"; NFile "b"]
  ∧ Nodes_Swap [NFile "c"; NDir "a"; NFile "b"] 0 2 = Some [NFile "b"; NDir "a"; NFile "c"]
  ∧ Nodes_Swap [NFile "c"; NDir "a"; NFile "b"] 2 0 = Some [NFile "b"; NDir "a"; NFile "c"].
Proof.
  assert (Hswap : Nodes_Swap [NFile "b"; NDir "a"; NFile "c"] 0 2
                  = Some [NFile "c"; NDir "a"; NFile "b"]) by done.
  split; [done|].
  exact (Nodes_Swap_involutive _ _ 0 2 Hswap).
Defined.

Lemma Nodes_Less_strict_weak_order_witness :
  Less [NFile "b"; NDir "a"; NFile "c"] 1 0 = Some true
  ∧ Less [NFile "b"; NDir "a"; NFile "c"] 0 2 = Some true
  ∧ Less [NFile "b"; NDir "a"; NFile "c"] 1 2 = Some true.
Proof.
  assert (H10 : Less [NFile "b"; NDir "a"; NFile "c"] 1 0 = Some true) by done.
  assert (H02 : Less [NFile "b"; NDir "a"; NFile "c"] 0 2 = Some true) by done.
  split_and!; [done..|].
  match type of H10 with
  | Less ?ns _ _ = _ =>
      destruct (Nodes_Less_strict_weak_order ns 1 0 2 _ _ _ eq_refl eq_refl eq_refl)
        as (_ & _ & Htrans & _)
  end.
  exact (Htrans H10 H02).
Defined.

Lemma test_Nodes_sorted : Nodes_sorted [NDir "a"; NFile "b"; NFile "c"].
Proof. intros [|[|[|i]]] [|[|[|j]]] Hij; cbn in Hij; try lia; done. Qed.

Lemma Nodes_sorted_unique_witness :
  NoDup (Node_Remote <$> [NFile "b"; NDir "a"; NFile "c"])
  ∧ [NDir "a"; NFile "b"; NFile "c"] ≡ₚ [NFile "b"; NDir "a"; NFile "c"]
  ∧ Nodes_sorted [NDir "a"; NFile "b"; NFile "c"]
  ∧ [NDir "a"; NFile "b"; NFile "c"] = [NDir "a"; NFile "b"; NFile "c"].
Proof.
  assert (Hdistinct : NoDup (Node_Remote <$> [NFile "b"; NDir "a"; NFile "c"]))
    by compute_done.
  assert (Hperm : [NDir "a"; NFile "b"; NFile "c"] ≡ₚ [NFile "b"; NDir "a"; NFile "c"])
    by apply Permutation_swap.
  split_and!; [done|done|apply test_Nodes_sorted|].
  exact (Nodes_sorted_unique _ _ _ Hdistinct Hperm Hperm test_Nodes_sorted test_Nodes_sorted).
Defined.

End TestTree_further_runs.

Lemma NewInode_calls_modular_witness :
  0 ≤ uint64_modulus - 1 < uint64_modulus
  ∧ (NewInode_calls 2 (uint64_modulus - 1)).1 = [0; 1]
  ∧ (NewInode_calls 2 (uint64_modulus - 1)).2 = 1.
Proof.
  assert (Hc : 0 ≤ uint64_modulus - 1 < uint64_modulus) by (unfold uint64_modulus; lia).
  split; [done|].
  destruct (NewInode_calls_modular 2 (uint64_modulus - 1) Hc) as (Hvalues & Hcount & _).
  split; [exact Hvalues|exact Hcount].
Defined.

Lemma NewInode_window_distinct_witness :
  0 ≤ uint64_modulus - 2 < uint64_modulus
  ∧ Z.of_nat 3 ≤ uint64_modulus
  ∧ NoDup (NewInode_calls 3 (uint64_modulus - 2)).1.
Proof.
  assert (Hc : 0 ≤ uint64_modulus - 2 < uint64_modulus) by (unfold uint64_modulus; lia).
  assert (Hn : Z.of_nat 3 ≤ uint64_modulus) by done.
  split_and!; [done..|].
  exact (NewInode_window_distinct 3 (uint64_modulus - 2) Hc Hn).
Defined.
